(** * Rack: scalar/geometry kernel ([include/util.hpp]) and the SVG knob
      ([src/app/SVGKnob.cpp])

    A shallow embedding of the math helpers, [Vec], [Rect] and of
    [SVGKnob::setSVG] / [SVGKnob::step] / [SVGKnob::onChange], followed by
    the properties the specification states about them and by further
    properties read off the code.

    Number model.  The C++ type [float] is idealised as the field of real
    numbers [R]: no rounding, no NaN, no infinities.  This is the data model
    the specification itself uses ("Vec2: ordered pair (x, y) of real
    numbers").  Comparisons are the decidable order of [R] turned into
    booleans, so every branch of the source keeps its shape.

    The C++ type [int] is a 32-bit two's complement integer, modelled as a
    [Z] in the range [INT_MIN .. INT_MAX]; an operation whose behaviour the
    language leaves undefined (division by zero, signed overflow, a read
    outside an array) yields [None]. *)

From Stdlib Require Import Reals Lra Lia ZArith List Bool.
Import ListNotations.

Local Open Scope R_scope.

(** ** Numbers *)

Definition float := R.

Definition fltb (a b : float) : bool := if Rlt_dec a b then true else false.
Definition fleb (a b : float) : bool := if Rle_dec a b then true else false.
Definition fgtb (a b : float) : bool := fltb b a.
Definition fgeb (a b : float) : bool := fleb b a.

Declare Scope float_scope.
Delimit Scope float_scope with float.
Infix "<?" := fltb (at level 70, no associativity) : float_scope.
Infix "<=?" := fleb (at level 70, no associativity) : float_scope.
Infix ">?" := fgtb (at level 70, no associativity) : float_scope.
Infix ">=?" := fgeb (at level 70, no associativity) : float_scope.

Definition INT_MIN : Z := (- 2 ^ 31)%Z.
Definition INT_MAX : Z := (2 ^ 31 - 1)%Z.

Definition in_int (z : Z) : Prop := (INT_MIN <= z <= INT_MAX)%Z.
Definition in_intb (z : Z) : bool := ((INT_MIN <=? z) && (z <=? INT_MAX))%Z.

(** [a + b] on [int]: signed overflow is undefined. *)
Definition int_add (a b : Z) : option Z :=
  if in_intb (a + b) then Some (a + b)%Z else None.

(** [a % b] on [int]: truncating remainder (the sign follows the dividend);
    undefined for [b = 0] and for [INT_MIN % -1]. *)
Definition int_rem (a b : Z) : option Z :=
  if (b =? 0)%Z then None
  else if ((a =? INT_MIN) && (b =? -1))%Z then None
  else Some (Z.rem a b).

(** [int xi = x;] conversion of a [float] to [int] discards the fractional
    part (truncation toward zero); undefined when the truncated value is not
    an [int]. *)
Definition truncate (x : float) : Z :=
  if Rle_dec 0 x then Int_part x else (- Int_part (- x))%Z.

Definition float_to_int (x : float) : option Z :=
  let z := truncate x in
  if in_intb z then Some z else None.

(** [floor] and [ceil], used by the specification of [interpf]. *)
Definition floor (x : R) : Z := Int_part x.
Definition ceil (x : R) : Z := (- Int_part (- x))%Z.

(** ** Math ([util.hpp], lines 14-92) *)

(** Limits a value between a minimum and maximum.
    If min > max for some reason, returns min. *)
Definition clampf (x min max : float) : float :=
  let x := if (x >? max)%float then max else x in
  let x := if (x <? min)%float then min else x in
  x.

(** If the magnitude of x is less than eps, return 0. *)
Definition chopf (x eps : float) : float :=
  if ((x <? eps) && (x >? - eps))%float then 0 else x.

Definition mapf (x xMin xMax yMin yMax : float) : float :=
  yMin + (x - xMin) / (xMax - xMin) * (yMax - yMin).

Definition crossf (a b frac : float) : float :=
  (1 - frac) * a + frac * b.

Definition mini (a b : Z) : Z := if (a <? b)%Z then a else b.
Definition maxi (a b : Z) : Z := if (a >? b)%Z then a else b.

Definition quadraticBipolar (x : float) : float :=
  let x2 := x * x in
  if (x >=? 0)%float then x2 else - x2.

Definition cubic (x : float) : float := x * x * x.

Definition quarticBipolar (x : float) : float :=
  let x2 := x * x in
  let x4 := x2 * x2 in
  if (x >=? 0)%float then x4 else - x4.

Definition quintic (x : float) : float := x * x * x * x * x.

(** Euclidean modulus, always returns 0 <= mod < base for positive base. *)
Definition eucMod (a base : Z) : option Z :=
  match int_rem a base with
  | None => None
  | Some mod_ => if (mod_ <? 0)%Z then int_add mod_ base else Some mod_
  end.

(** A [float *] is null or the address of a [float] cell; the cells live in
    a memory that maps an address to the value stored there. *)
Definition ptr : Type := option nat.
Definition memory : Type := nat -> float.

Definition getf (m : memory) (p : ptr) (v : float) : float :=
  match p with
  | Some a => m a
  | None => v
  end.

Definition setf (m : memory) (p : ptr) (v : float) : memory :=
  match p with
  | Some a => fun b => if Nat.eqb b a then v else m b
  | None => m
  end.

(** Reading [p[i]] from an array of [length p] floats: defined only for an
    index inside the array. *)
Definition load (p : list float) (i : Z) : option float :=
  if (i <? 0)%Z then None else nth_error p (Z.to_nat i).

(** Linearly interpolate an array [p] with index [x]. *)
Definition interpf (p : list float) (x : float) : option float :=
  match float_to_int x with
  | None => None
  | Some xi =>
      let xf := x - IZR xi in
      match load p xi, int_add xi 1 with
      | Some p0, Some xi1 =>
          match load p xi1 with
          | Some p1 => Some (crossf p0 p1 xf)
          | None => None
          end
      | _, _ => None
      end
  end.

(** ** The functions of [math.h] that [Vec] calls *)

(** [hypotf(x, y)]: the length of the hypotenuse. *)
Definition hypotf (x y : float) : float := sqrt (x * x + y * y).

(** [roundf(x)]: the nearest integer, halfway cases away from zero. *)
Definition roundf (x : float) : float :=
  if Rle_dec 0 x then IZR (Int_part (x + 1 / 2)) else - IZR (Int_part (- x + 1 / 2)).

(** ** 2D float vector ([util.hpp], lines 108-144) *)

Module Vec.

Record t : Type := mk { x : float; y : float }.

Definition zero : t := mk 0 0.

Definition neg (v : t) : t := mk (- x v) (- y v).
Definition plus (v b : t) : t := mk (x v + x b) (y v + y b).
Definition minus (v b : t) : t := mk (x v - x b) (y v - y b).
Definition mult (v : t) (s : float) : t := mk (x v * s) (y v * s).
Definition div (v : t) (s : float) : t := mk (x v / s) (y v / s).
Definition dot (v b : t) : float := x v * x b + y v * y b.
Definition min (v b : t) : t := mk (Rmin (x v) (x b)) (Rmin (y v) (y b)).
Definition max (v b : t) : t := mk (Rmax (x v) (x b)) (Rmax (y v) (y b)).

Definition norm (v : t) : float := hypotf (x v) (y v).
Definition round (v : t) : t := mk (roundf (x v)) (roundf (y v)).

(** Modelled from the spec: the overload [Vec::div(Vec)] that
    [SVGKnob::step] calls is not in the [util.hpp] at hand; the
    specification writes it [displayBoxSize / childNaturalSize], the
    quotient taken per component. *)
Definition divv (v b : t) : t := mk (x v / x b) (y v / y b).

End Vec.

(** ** Rect ([util.hpp], lines 147-184) *)

Module Rect.

Record t : Type := mk { pos : Vec.t; size : Vec.t }.

(** Returns whether this Rect contains a point, inclusive on the top/left,
    non-inclusive on the bottom/right. *)
Definition contains (r : t) (v : Vec.t) : bool :=
  ((Vec.x (pos r) <=? Vec.x v) && (Vec.x v <? Vec.x (pos r) + Vec.x (size r))
   && (Vec.y (pos r) <=? Vec.y v) && (Vec.y v <? Vec.y (pos r) + Vec.y (size r)))%float.

(** Returns whether this Rect overlaps with another Rect. *)
Definition intersects (a r : t) : bool :=
  ((Vec.x (pos a) + Vec.x (size a) >? Vec.x (pos r))
   && (Vec.x (pos r) + Vec.x (size r) >? Vec.x (pos a))
   && ((Vec.y (pos a) + Vec.y (size a) >? Vec.y (pos r))
       && (Vec.y (pos r) + Vec.y (size r) >? Vec.y (pos a))))%float.

Definition getCenter (r : t) : Vec.t := Vec.plus (pos r) (Vec.mult (size r) (1 / 2)).
Definition getTopRight (r : t) : Vec.t := Vec.plus (pos r) (Vec.mk (Vec.x (size r)) 0).
Definition getBottomLeft (r : t) : Vec.t := Vec.plus (pos r) (Vec.mk 0 (Vec.y (size r))).
Definition getBottomRight (r : t) : Vec.t := Vec.plus (pos r) (size r).

(** Clamps the position to fit inside a bounding box. *)
Definition clamp (r bound : t) : t :=
  mk (Vec.mk
        (clampf (Vec.x (pos r)) (Vec.x (pos bound))
                (Vec.x (pos bound) + Vec.x (size bound) - Vec.x (size r)))
        (clampf (Vec.y (pos r)) (Vec.y (pos bound))
                (Vec.y (pos bound) + Vec.y (size bound) - Vec.y (size r))))
     (size r).

End Rect.

(** ** The affine transform accumulator *)

Module TransformWidget.

(** Modelled from the spec: [TransformWidget] (its declaration and its
    methods [identity], [translate], [rotate], [scale]) is not among the
    sources at hand.  The specification describes an affine 2D transform
    that [identity()] resets and onto which [scale], [rotate] and
    [translate] compose, "each applied to the already-transformed frame":
    the operation called last is the first one a point goes through.

    The six coefficients map a point [(x, y)] to
    [(a x + c y + e, b x + d y + f)]. *)
Record t : Type := mk { a : float; b : float; c : float; d : float; e : float; f : float }.

Definition apply (m : t) (p : Vec.t) : Vec.t :=
  Vec.mk (a m * Vec.x p + c m * Vec.y p + e m)
         (b m * Vec.x p + d m * Vec.y p + f m).

(** [premultiply m s]: the transform that applies [s] first and [m] next. *)
Definition premultiply (m s : t) : t :=
  mk (a m * a s + c m * b s) (b m * a s + d m * b s)
     (a m * c s + c m * d s) (b m * c s + d m * d s)
     (a m * e s + c m * f s + e m) (b m * e s + d m * f s + f m).

Definition identity (_ : t) : t := mk 1 0 0 1 0 0.

Definition translate (m : t) (delta : Vec.t) : t :=
  premultiply m (mk 1 0 0 1 (Vec.x delta) (Vec.y delta)).

Definition rotate (m : t) (angle : float) : t :=
  premultiply m (mk (cos angle) (sin angle) (- sin angle) (cos angle) 0 0).

Definition scale (m : t) (s : Vec.t) : t :=
  premultiply m (mk (Vec.x s) 0 0 (Vec.y s) 0 0).

End TransformWidget.

(** ** The knob ([SVGKnob.cpp]) *)

(** Modelled from the spec: [rescalef], which [SVGKnob::step] calls, is not
    in the [util.hpp] at hand.  The specification names the call
    [map(value, minValue, maxValue, minAngle, maxAngle)], the affine remap
    that [util.hpp] defines as [mapf]. *)
Definition rescalef (x xMin xMax yMin yMax : float) : float :=
  mapf x xMin xMax yMin yMax.

Module Knob.

(** The members of the base class [Knob] that [SVGKnob] reads. *)
Record t : Type := mk { value : float; minValue : float; maxValue : float }.

End Knob.

Module FramebufferWidget.

(** The base class [FramebufferWidget]: the [dirty] flag and the cached
    raster, whose representation [Internal] is opaque here. *)
Record t (Internal : Type) : Type := mk { dirty : bool; internal : Internal }.

Arguments mk {Internal} _ _.
Arguments dirty {Internal} _.
Arguments internal {Internal} _.

End FramebufferWidget.

Module SVGKnob.

Record t (Internal : Type) : Type := mk {
  knob : Knob.t;                         (* base class Knob *)
  fb : FramebufferWidget.t Internal;     (* base class FramebufferWidget *)
  box : Rect.t;                          (* Widget::box of the knob *)
  minAngle : float;
  maxAngle : float;
  tw : TransformWidget.t;                (* tw's transform *)
  sw_box : Rect.t                        (* sw->box, the natural box of the SVG *)
}.

Arguments mk {Internal} _ _ _ _ _ _ _.
Arguments knob {Internal} _.
Arguments fb {Internal} _.
Arguments box {Internal} _.
Arguments minAngle {Internal} _.
Arguments maxAngle {Internal} _.
Arguments tw {Internal} _.
Arguments sw_box {Internal} _.

Section Methods.

Context {Internal : Type}.

(** The two base-class methods the knob delegates to are not among the
    sources at hand; they are parameters.  [Knob::onChange] is a method
    of the base [Knob] and works on its members; [FramebufferWidget::step]
    may read the whole node and updates the framebuffer's own state (the
    flag and the cache). *)
Variable Knob_onChange : Knob.t -> Knob.t.
Variable FramebufferWidget_step : t Internal -> FramebufferWidget.t Internal.

Definition dirty (k : t Internal) : bool := FramebufferWidget.dirty (fb k).

Definition set_dirty (k : t Internal) (v : bool) : t Internal :=
  mk (knob k) (FramebufferWidget.mk v (FramebufferWidget.internal (fb k)))
     (box k) (minAngle k) (maxAngle k) (tw k) (sw_box k).

Definition set_tw (k : t Internal) (m : TransformWidget.t) : t Internal :=
  mk (knob k) (fb k) (box k) (minAngle k) (maxAngle k) m (sw_box k).

Definition set_knob (k : t Internal) (b : Knob.t) : t Internal :=
  mk b (fb k) (box k) (minAngle k) (maxAngle k) (tw k) (sw_box k).

Definition set_fb (k : t Internal) (w : FramebufferWidget.t Internal) : t Internal :=
  mk (knob k) w (box k) (minAngle k) (maxAngle k) (tw k) (sw_box k).

(** The angle [step] computes from the current value. *)
Definition angle (k : t Internal) : float :=
  rescalef (Knob.value (knob k)) (Knob.minValue (knob k)) (Knob.maxValue (knob k))
           (minAngle k) (maxAngle k).

(** The five calls on [tw] inside [if (dirty)], in source order. *)
Definition retransform (k : t Internal) (angle : float) : TransformWidget.t :=
  let tw := TransformWidget.identity (tw k) in
  (* Scale SVG to box *)
  let tw := TransformWidget.scale tw (Vec.divv (Rect.size (box k)) (Rect.size (sw_box k))) in
  (* Rotate SVG *)
  let center := Rect.getCenter (sw_box k) in
  let tw := TransformWidget.translate tw center in
  let tw := TransformWidget.rotate tw angle in
  let tw := TransformWidget.translate tw (Vec.neg center) in
  tw.

Definition step (k : t Internal) : t Internal :=
  (* Re-transform TransformWidget if dirty *)
  let k := if dirty k then set_tw k (retransform k (angle k)) else k in
  set_fb k (FramebufferWidget_step k).

Definition onChange (k : t Internal) : t Internal :=
  let k := set_dirty k true in
  set_knob k (Knob_onChange (knob k)).

End Methods.

(** [setSVG] also writes [sw->svg] and [tw->box], which [t] does not hold:
    the knob together with these two members. *)
Record widgets (Internal SVG : Type) : Type := mkWidgets {
  node : t Internal;
  tw_box : Rect.t;                       (* tw->box *)
  sw_svg : SVG                           (* sw->svg *)
}.

Arguments mkWidgets {Internal SVG} _ _ _.
Arguments node {Internal SVG} _.
Arguments tw_box {Internal SVG} _.
Arguments sw_svg {Internal SVG} _.

Section Graphic.

Context {Internal SVG : Type}.

(** [SVGWidget::wrap] is not among the sources at hand; it is a parameter
    that computes the new [sw->box] from [sw->svg] and the old box. *)
Variable SVGWidget_wrap : SVG -> Rect.t -> Rect.t.

Definition setSVG (w : widgets Internal SVG) (svg : SVG) : widgets Internal SVG :=
  let k := node w in
  let sw_box' := SVGWidget_wrap svg (sw_box k) in
  let tw_box' := Rect.mk (Rect.pos (tw_box w)) (Rect.size sw_box') in
  let box' := Rect.mk (Rect.pos (box k)) (Rect.size sw_box') in
  mkWidgets (mk (knob k) (fb k) box' (minAngle k) (maxAngle k) (tw k) sw_box')
            tw_box' svg.

End Graphic.

End SVGKnob.


(** ** Vocabulary of the specification *)

(** The open intervals [(a1, a2)] and [(b1, b2)] overlap: they share a point. *)
Definition open_overlap (a1 a2 b1 b2 : R) : Prop :=
  exists t : R, a1 < t < a2 /\ b1 < t < b2.

(** The specification of [intersects]: the open intervals the two rectangles
    span overlap on the x axis and on the y axis. *)
Definition open_intervals_overlap (a b : Rect.t) : Prop :=
  open_overlap (Vec.x (Rect.pos a)) (Vec.x (Rect.pos a) + Vec.x (Rect.size a))
               (Vec.x (Rect.pos b)) (Vec.x (Rect.pos b) + Vec.x (Rect.size b)) /\
  open_overlap (Vec.y (Rect.pos a)) (Vec.y (Rect.pos a) + Vec.y (Rect.size a))
               (Vec.y (Rect.pos b)) (Vec.y (Rect.pos b) + Vec.y (Rect.size b)).

(** An edge of [a] lies on the line of the facing edge of [b]. *)
Definition edges_touch (a b : Rect.t) : Prop :=
  Vec.x (Rect.pos a) + Vec.x (Rect.size a) = Vec.x (Rect.pos b) \/
  Vec.x (Rect.pos b) + Vec.x (Rect.size b) = Vec.x (Rect.pos a) \/
  Vec.y (Rect.pos a) + Vec.y (Rect.size a) = Vec.y (Rect.pos b) \/
  Vec.y (Rect.pos b) + Vec.y (Rect.size b) = Vec.y (Rect.pos a).

(** Both sides of the rectangle have positive length. *)
Definition positive_size (r : Rect.t) : Prop :=
  0 < Vec.x (Rect.size r) /\ 0 < Vec.y (Rect.size r).




(** ** The scenario of the specification *)

(** A knob with [minValue = 0], [maxValue = 10], [minAngle = 0],
    [maxAngle = PI] whose value has been set to [5] and whose flag is set;
    a 10 x 10 graphic shown in a 20 x 30 box. *)
Definition scenario_knob : SVGKnob.t unit :=
  SVGKnob.mk (Knob.mk 5 0 10) (FramebufferWidget.mk true tt)
             (Rect.mk (Vec.mk 0 0) (Vec.mk 20 30)) 0 PI
             (TransformWidget.mk 1 0 0 1 0 0)
             (Rect.mk (Vec.mk 0 0) (Vec.mk 10 10)).

(** Modelled from the spec: [FramebufferWidget::step] is not among the
    sources at hand; for the scenario, the cached render node of the
    specification, which re-renders when dirty and then clears the flag. *)
Definition scenario_framebuffer_step (k : SVGKnob.t unit) : FramebufferWidget.t unit :=
  if SVGKnob.dirty k then FramebufferWidget.mk false tt else SVGKnob.fb k.


(** * Properties *)

(** ** Comparisons *)

Lemma fltb_true (a b : float) : fltb a b = true <-> a < b.
Proof. unfold fltb; destruct (Rlt_dec a b); split; (congruence || tauto). Qed.

Lemma fltb_false (a b : float) : fltb a b = false <-> b <= a.
Proof. unfold fltb; destruct (Rlt_dec a b); split; intros; (congruence || lra). Qed.

Lemma fleb_true (a b : float) : fleb a b = true <-> a <= b.
Proof. unfold fleb; destruct (Rle_dec a b); split; (congruence || tauto). Qed.

Lemma fleb_false (a b : float) : fleb a b = false <-> b < a.
Proof. unfold fleb; destruct (Rle_dec a b); split; intros; (congruence || lra). Qed.

Lemma fgtb_true (a b : float) : fgtb a b = true <-> a > b.
Proof. unfold fgtb; rewrite fltb_true; unfold Rgt; tauto. Qed.

Lemma fgtb_false (a b : float) : fgtb a b = false <-> a <= b.
Proof. unfold fgtb; apply fltb_false. Qed.

(** Decide every comparison that occurs in the goal, keeping the fact. *)
Ltac float_decide :=
  unfold fgeb, fgtb, fleb, fltb in *;
  repeat match goal with
         | |- context [Rlt_dec ?a ?b] => destruct (Rlt_dec a b)
         | |- context [Rle_dec ?a ?b] => destruct (Rle_dec a b)
         | H : context [Rlt_dec ?a ?b] |- _ => destruct (Rlt_dec a b)
         | H : context [Rle_dec ?a ?b] |- _ => destruct (Rle_dec a b)
         end.

(** ** clampf *)

Lemma clampf_min_wins (x min max : float) : min > max -> clampf x min max = min.
Proof. intros H; unfold clampf; float_decide; lra. Qed.

Lemma clampf_above (x min max : float) : min <= max -> x > max -> clampf x min max = max.
Proof. intros H1 H2; unfold clampf; float_decide; lra. Qed.

Lemma clampf_below (x min max : float) : x < min -> clampf x min max = min.
Proof. intros H; unfold clampf; float_decide; lra. Qed.

Lemma clampf_inside (x min max : float) : min <= x <= max -> clampf x min max = x.
Proof. intros H; unfold clampf; float_decide; lra. Qed.


(** C7.  [clampf x min max] is [min] whenever [min > max], whatever [x] is;
    and when [min <= max] it is [max] for [x > max], [min] for [x < min],
    and [x] itself otherwise. *)
Theorem clampf_spec (x min max : float) :
  (min > max -> clampf x min max = min) /\
  (min <= max ->
     (x > max -> clampf x min max = max) /\
     (x < min -> clampf x min max = min) /\
     (~ x > max -> ~ x < min -> clampf x min max = x)).
Proof.
  split; [apply clampf_min_wins|].
  intros Hle; repeat split.
  - now apply clampf_above.
  - apply clampf_below.
  - intros H1 H2; apply clampf_inside; lra.
Qed.

Lemma clampf_spec_witness :
  clampf 5 3 1 = 3 /\ clampf 7 0 5 = 5 /\ clampf (-1) 0 5 = 0 /\ clampf 2 0 5 = 2.
Proof.
  split; [apply (proj1 (clampf_spec 5 3 1)); lra|].
  split; [apply (proj2 (clampf_spec 7 0 5)); lra|].
  split; [apply (proj2 (clampf_spec (-1) 0 5)); lra|].
  apply (proj2 (clampf_spec 2 0 5)); lra.
Defined.

(** C10.  [clampf] is idempotent in its first argument for every [x], [min]
    and [max], the degenerate [min > max] included. *)
Theorem clampf_idempotent (x min max : float) :
  clampf (clampf x min max) min max = clampf x min max.
Proof. unfold clampf; float_decide; lra. Qed.

(** ** eucMod *)

Lemma in_intb_true (z : Z) : in_intb z = true <-> in_int z.
Proof. unfold in_intb, in_int; rewrite andb_true_iff, !Z.leb_le; tauto. Qed.

Lemma int_rem_defined (a base : Z) :
  (0 < base)%Z -> int_rem a base = Some (Z.rem a base).
Proof.
  intros Hb; unfold int_rem.
  destruct (Z.eqb_spec base 0); [lia|].
  destruct (Z.eqb_spec base (-1)); [lia|].
  now rewrite andb_false_r.
Qed.

Lemma eucMod_is_modulo (a base : Z) :
  in_int a -> in_int base -> (0 < base)%Z -> eucMod a base = Some (a mod base)%Z.
Proof.
  intros Ha Hbase Hpos; unfold eucMod; rewrite int_rem_defined by assumption.
  pose proof (Z.quot_rem' a base) as Hqr.
  destruct (Z.ltb_spec (Z.rem a base) 0) as [Hneg|Hnn].
  - assert (Ha0 : (a < 0)%Z).
    { destruct (Z.lt_ge_cases a 0) as [|Hge]; [assumption|].
      pose proof (Z.rem_bound_pos a base Hge Hpos); lia. }
    pose proof (Z.rem_bound_pos_neg a base Hpos (Z.lt_le_incl _ _ Ha0)) as Hb.
    unfold int_add.
    assert (Hin : in_intb (Z.rem a base + base) = true).
    { apply in_intb_true; unfold in_int, INT_MIN, INT_MAX in *; lia. }
    rewrite Hin; f_equal.
    apply (Z.mod_unique a base (Z.quot a base - 1)); lia.
  - f_equal.
    assert (Hlt : (Z.rem a base < base)%Z).
    { pose proof (Z.rem_bound_abs a base); lia. }
    apply (Z.mod_unique a base (Z.quot a base)); lia.
Qed.

(** C8.  For every [int] [a] and every positive [int] [base],
    [eucMod a base] is defined and lies in [0, base); [eucMod (-1) 4] is [3]
    and [eucMod 5 4] is [1], while the truncating [-1 % 4] is [-1]. *)
Theorem eucMod_range :
  (forall a base : Z,
      in_int a -> in_int base -> (0 < base)%Z ->
      exists r, eucMod a base = Some r /\ (0 <= r < base)%Z) /\
  eucMod (-1) 4 = Some 3%Z /\
  eucMod 5 4 = Some 1%Z /\
  int_rem (-1) 4 = Some (-1)%Z.
Proof.
  split; [|repeat split; reflexivity].
  intros a base Ha Hbase Hpos.
  exists (a mod base)%Z; split.
  - now apply eucMod_is_modulo.
  - apply Z.mod_pos_bound; assumption.
Qed.

Lemma eucMod_range_witness :
  exists r, eucMod (-7) 3 = Some r /\ (0 <= r < 3)%Z.
Proof.
  apply (proj1 eucMod_range (-7)%Z 3%Z);
    unfold in_int, INT_MIN, INT_MAX; lia.
Defined.

(** ** Rect *)

Lemma contains_iff (r : Rect.t) (v : Vec.t) :
  Rect.contains r v = true <->
  (Vec.x (Rect.pos r) <= Vec.x v < Vec.x (Rect.pos r) + Vec.x (Rect.size r)) /\
  (Vec.y (Rect.pos r) <= Vec.y v < Vec.y (Rect.pos r) + Vec.y (Rect.size r)).
Proof.
  unfold Rect.contains.
  rewrite !andb_true_iff, !fleb_true, !fltb_true; tauto.
Qed.

Lemma intersects_iff (a b : Rect.t) :
  Rect.intersects a b = true <->
  (Vec.x (Rect.pos a) + Vec.x (Rect.size a) > Vec.x (Rect.pos b) /\
   Vec.x (Rect.pos b) + Vec.x (Rect.size b) > Vec.x (Rect.pos a)) /\
  (Vec.y (Rect.pos a) + Vec.y (Rect.size a) > Vec.y (Rect.pos b) /\
   Vec.y (Rect.pos b) + Vec.y (Rect.size b) > Vec.y (Rect.pos a)).
Proof.
  unfold Rect.intersects.
  rewrite !andb_true_iff, !fgtb_true; tauto.
Qed.

(** C5.  [contains] is half-open: true exactly for the points with
    [pos.x <= x < pos.x + size.x] and [pos.y <= y < pos.y + size.y]; the
    rectangle at the origin of size 10 x 10 does not contain [(10, 5)] and
    contains [(0, 5)]. *)
Theorem contains_half_open :
  (forall (r : Rect.t) (v : Vec.t),
      Rect.contains r v = true <->
      (Vec.x (Rect.pos r) <= Vec.x v < Vec.x (Rect.pos r) + Vec.x (Rect.size r)) /\
      (Vec.y (Rect.pos r) <= Vec.y v < Vec.y (Rect.pos r) + Vec.y (Rect.size r))) /\
  Rect.contains (Rect.mk (Vec.mk 0 0) (Vec.mk 10 10)) (Vec.mk 10 5) = false /\
  Rect.contains (Rect.mk (Vec.mk 0 0) (Vec.mk 10 10)) (Vec.mk 0 5) = true.
Proof.
  split; [exact contains_iff|split].
  - apply not_true_is_false; rewrite contains_iff; simpl; lra.
  - apply contains_iff; simpl; lra.
Qed.

(** When both intervals are non-empty, sharing a point is the pair of strict
    inequalities that [intersects] tests. *)
Lemma open_overlap_iff (a1 a2 b1 b2 : R) :
  a1 < a2 -> b1 < b2 -> (open_overlap a1 a2 b1 b2 <-> a2 > b1 /\ b2 > a1).
Proof.
  intros Ha Hb; split.
  - intros [t [H1 H2]]; lra.
  - intros [H1 H2]; exists ((Rmax a1 b1 + Rmin a2 b2) / 2).
    unfold Rmax, Rmin; destruct (Rle_dec a1 b1), (Rle_dec a2 b2); lra.
Qed.

Lemma open_overlap_nonempty (a1 a2 b1 b2 : R) :
  open_overlap a1 a2 b1 b2 -> a1 < a2 /\ b1 < b2 /\ a2 > b1 /\ b2 > a1.
Proof. intros [t [H1 H2]]; lra. Qed.

(** Overlapping open intervals always make [intersects] answer true. *)
Lemma overlap_intersects (a b : Rect.t) :
  open_intervals_overlap a b -> Rect.intersects a b = true.
Proof.
  intros [Hx Hy]; apply open_overlap_nonempty in Hx, Hy.
  apply intersects_iff; lra.
Qed.

(** C6, as stated, fails on a rectangle of size zero: the point-like
    rectangle at [(5, 5)] spans the empty open intervals [(5, 5)], which
    overlap nothing, yet [intersects] answers true against the rectangle at
    the origin of size 10 x 10. *)
Lemma intersects_zero_size_counterexample :
  Rect.intersects (Rect.mk (Vec.mk 5 5) (Vec.mk 0 0))
                  (Rect.mk (Vec.mk 0 0) (Vec.mk 10 10)) = true /\
  ~ open_intervals_overlap (Rect.mk (Vec.mk 5 5) (Vec.mk 0 0))
                           (Rect.mk (Vec.mk 0 0) (Vec.mk 10 10)).
Proof.
  split.
  - apply intersects_iff; simpl; lra.
  - intros [Hx _]; apply open_overlap_nonempty in Hx; simpl in Hx; lra.
Qed.

(** C6, amended.  For rectangles whose width and height are positive,
    [intersects] is true exactly when the open intervals overlap on both
    axes; and rectangles with an edge on the facing edge of the other do not
    intersect. *)
Theorem intersects_open_intervals (a b : Rect.t) :
  positive_size a -> positive_size b ->
  (Rect.intersects a b = true <-> open_intervals_overlap a b) /\
  (edges_touch a b -> Rect.intersects a b = false).
Proof.
  intros [Hax Hay] [Hbx Hby]; split.
  - rewrite intersects_iff; unfold open_intervals_overlap.
    rewrite !open_overlap_iff by lra; tauto.
  - intros Ht; apply not_true_is_false; rewrite intersects_iff.
    unfold edges_touch in Ht; lra.
Qed.

Lemma intersects_open_intervals_witness :
  positive_size (Rect.mk (Vec.mk 0 0) (Vec.mk 10 10)) /\
  positive_size (Rect.mk (Vec.mk 5 5) (Vec.mk 10 10)) /\
  (Rect.intersects (Rect.mk (Vec.mk 0 0) (Vec.mk 10 10))
                   (Rect.mk (Vec.mk 5 5) (Vec.mk 10 10)) = true <->
   open_intervals_overlap (Rect.mk (Vec.mk 0 0) (Vec.mk 10 10))
                          (Rect.mk (Vec.mk 5 5) (Vec.mk 10 10))).
Proof.
  assert (Ha : positive_size (Rect.mk (Vec.mk 0 0) (Vec.mk 10 10)))
    by (unfold positive_size; simpl; lra).
  assert (Hb : positive_size (Rect.mk (Vec.mk 5 5) (Vec.mk 10 10)))
    by (unfold positive_size; simpl; lra).
  split; [exact Ha|split; [exact Hb|]].
  exact (proj1 (intersects_open_intervals _ _ Ha Hb)).
Defined.






(** ** interpf *)

Lemma Int_part_unique (r : R) (z : Z) : IZR z <= r < IZR z + 1 -> Int_part r = z.
Proof.
  intros [H1 H2]; unfold Int_part.
  rewrite <- (up_tech r z); [lia|assumption|rewrite plus_IZR; lra].
Qed.

Lemma Int_part_IZR (z : Z) : Int_part (IZR z) = z.
Proof. apply Int_part_unique; lra. Qed.

Lemma floor_bounds (x : R) : IZR (floor x) <= x < IZR (floor x) + 1.
Proof. unfold floor; destruct (base_Int_part x); lra. Qed.

Lemma floor_nonneg (x : R) : 0 <= x -> (0 <= floor x)%Z.
Proof.
  intros Hx; pose proof (floor_bounds x) as [_ H].
  assert (Hlt : IZR (-1) < IZR (floor x)) by lra.
  apply lt_IZR in Hlt; lia.
Qed.

(** On a non-negative [float] the conversion to [int] is [floor]. *)
Lemma truncate_nonneg (x : float) : 0 <= x -> truncate x = floor x.
Proof. intros Hx; unfold truncate; destruct (Rle_dec 0 x); [reflexivity|contradiction]. Qed.

(** On a negative [float] it is [ceil]. *)
Lemma truncate_neg (x : float) : x < 0 -> truncate x = ceil x.
Proof. intros Hx; unfold truncate; destruct (Rle_dec 0 x); [lra|reflexivity]. Qed.

Lemma load_inside (p : list float) (i : Z) :
  (0 <= i < Z.of_nat (length p))%Z -> exists v, load p i = Some v.
Proof.
  intros Hi; unfold load.
  destruct (Z.ltb_spec i 0); [lia|].
  destruct (nth_error p (Z.to_nat i)) eqn:E; [now eexists|].
  apply nth_error_None in E; lia.
Qed.

Lemma load_outside (p : list float) (i : Z) :
  (Z.of_nat (length p) <= i)%Z -> load p i = None.
Proof.
  intros Hi; unfold load.
  destruct (Z.ltb_spec i 0); [reflexivity|].
  apply nth_error_None; lia.
Qed.

(** X1.  What [interpf] returns when the two reads are inside the array: for a
    non-negative [x] below [INT_MAX] and an array of at least [floor x + 2]
    elements, the interpolation between [p[floor x]] and [p[floor x + 1]]
    with fraction [x - floor x]. *)
Lemma interpf_inside (p : list float) (x : float) :
  0 <= x -> (floor x < INT_MAX)%Z -> (floor x + 2 <= Z.of_nat (length p))%Z ->
  exists p0 p1,
    load p (floor x) = Some p0 /\ load p (floor x + 1) = Some p1 /\
    interpf p x = Some ((1 - (x - IZR (floor x))) * p0 + (x - IZR (floor x)) * p1).
Proof.
  intros Hx Hmax Hlen.
  pose proof (floor_nonneg x Hx) as H0.
  destruct (load_inside p (floor x)) as [p0 Hp0]; [lia|].
  destruct (load_inside p (floor x + 1)) as [p1 Hp1]; [lia|].
  exists p0, p1; repeat split; try assumption.
  unfold interpf, float_to_int, int_add; rewrite (truncate_nonneg x Hx).
  assert (Hin : in_intb (floor x) = true).
  { apply in_intb_true; unfold in_int, INT_MIN, INT_MAX in *; lia. }
  assert (Hin1 : in_intb (floor x + 1) = true).
  { apply in_intb_true; unfold in_int, INT_MIN, INT_MAX in *; lia. }
  rewrite Hin, Hp0, Hin1, Hp1; reflexivity.
Qed.

Lemma interpf_inside_witness :
  exists p0 p1,
    load [1; 2; 4] (floor (3 / 2)) = Some p0 /\
    load [1; 2; 4] (floor (3 / 2) + 1) = Some p1 /\
    interpf [1; 2; 4] (3 / 2) =
      Some ((1 - (3 / 2 - IZR (floor (3 / 2)))) * p0 + (3 / 2 - IZR (floor (3 / 2))) * p1).
Proof.
  assert (Hf : floor (3 / 2) = 1%Z) by (apply Int_part_unique; lra).
  apply (interpf_inside [1; 2; 4] (3 / 2)).
  - lra.
  - rewrite Hf; reflexivity.
  - rewrite Hf; simpl; lia.
Defined.

(** At an integral index [n] the second read is [p[n + 1]]: an array of
    [n + 1 = ceil n + 1] elements is read one element past its end. *)
Lemma interpf_integral_index (p : list float) (n : Z) :
  (0 <= n < INT_MAX)%Z -> Z.of_nat (length p) = (n + 1)%Z ->
  (ceil (IZR n) + 1 <= Z.of_nat (length p))%Z /\ interpf p (IZR n) = None.
Proof.
  intros Hn Hlen; split.
  - unfold ceil; rewrite <- opp_IZR, Int_part_IZR; lia.
  - unfold interpf, float_to_int, int_add.
    rewrite truncate_nonneg by (apply IZR_le; lia).
    unfold floor; rewrite Int_part_IZR.
    assert (Hin : in_intb n = true).
    { apply in_intb_true; unfold in_int, INT_MIN, INT_MAX in *; lia. }
    assert (Hin1 : in_intb (n + 1) = true).
    { apply in_intb_true; unfold in_int, INT_MIN, INT_MAX in *; lia. }
    rewrite Hin, Hin1, (load_outside p (n + 1)) by lia.
    destruct (load p n); reflexivity.
Qed.

(** C9 at the index [x = 2.0] with the three-element array [{1, 2, 3}]: the
    array has [ceil x + 1] elements, the formula of the claim needs
    [p[floor x + 1] = p[3]], which the array does not have, and [interpf]
    reads it: the call has no defined result. *)
Theorem interpf_reads_past_end :
  (ceil 2 + 1 <= Z.of_nat (length [1; 2; 3]))%Z /\
  load [1; 2; 3] (floor 2) = Some 3 /\
  load [1; 2; 3] (floor 2 + 1) = None /\
  interpf [1; 2; 3] 2 = None.
Proof.
  destruct (interpf_integral_index [1; 2; 3] 2) as [H1 H2];
    [unfold INT_MAX; lia|reflexivity|].
  unfold floor; rewrite (Int_part_IZR 2); repeat split; assumption.
Qed.

(** For a negative index the conversion rounds toward zero, not down: at
    [x = -1/2] the source reads [p[0]] and [p[1]] and extrapolates with the
    fraction [-1/2]. *)
Lemma interpf_negative_index :
  floor (- (1 / 2)) = (-1)%Z /\ truncate (- (1 / 2)) = 0%Z /\
  interpf [1; 2] (- (1 / 2)) = Some (crossf 1 2 (- (1 / 2))).
Proof.
  assert (Hf : floor (- (1 / 2)) = (-1)%Z) by (apply Int_part_unique; lra).
  assert (Ht : truncate (- (1 / 2)) = 0%Z).
  { rewrite truncate_neg by lra. unfold ceil.
    rewrite (Int_part_unique (- - (1 / 2)) 0); [reflexivity|lra]. }
  repeat split; try assumption.
  unfold interpf, float_to_int; rewrite Ht; simpl.
  repeat f_equal; lra.
Qed.

(** ** The transform accumulator *)

Lemma apply_premultiply (m s : TransformWidget.t) (p : Vec.t) :
  TransformWidget.apply (TransformWidget.premultiply m s) p =
  TransformWidget.apply m (TransformWidget.apply s p).
Proof. unfold TransformWidget.apply, TransformWidget.premultiply; simpl; f_equal; ring. Qed.

Lemma apply_identity (m : TransformWidget.t) (p : Vec.t) :
  TransformWidget.apply (TransformWidget.identity m) p = p.
Proof. destruct p; unfold TransformWidget.apply; simpl; f_equal; ring. Qed.

Lemma apply_scale (m : TransformWidget.t) (s p : Vec.t) :
  TransformWidget.apply (TransformWidget.scale m s) p =
  TransformWidget.apply m (Vec.mk (Vec.x s * Vec.x p) (Vec.y s * Vec.y p)).
Proof.
  unfold TransformWidget.scale; rewrite apply_premultiply.
  f_equal; unfold TransformWidget.apply; simpl; f_equal; ring.
Qed.

Lemma apply_translate (m : TransformWidget.t) (delta p : Vec.t) :
  TransformWidget.apply (TransformWidget.translate m delta) p =
  TransformWidget.apply m (Vec.plus p delta).
Proof.
  unfold TransformWidget.translate; rewrite apply_premultiply.
  f_equal; unfold TransformWidget.apply, Vec.plus; simpl; f_equal; ring.
Qed.

Lemma apply_rotate (m : TransformWidget.t) (angle : float) (p : Vec.t) :
  TransformWidget.apply (TransformWidget.rotate m angle) p =
  TransformWidget.apply m
    (Vec.mk (cos angle * Vec.x p - sin angle * Vec.y p)
            (sin angle * Vec.x p + cos angle * Vec.y p)).
Proof.
  unfold TransformWidget.rotate; rewrite apply_premultiply.
  f_equal; unfold TransformWidget.apply; simpl; f_equal; ring.
Qed.

(** ** The knob *)

Section KnobProperties.

Context {Internal : Type}.
Variable Knob_onChange : Knob.t -> Knob.t.
Variable FramebufferWidget_step : SVGKnob.t Internal -> FramebufferWidget.t Internal.

(** A point goes through the rebuilt transform from the last call to the
    first: moved by [-center], rotated, moved by [+center], scaled. *)
Lemma apply_retransform (k : SVGKnob.t Internal) (theta : float) (p : Vec.t) :
  TransformWidget.apply (SVGKnob.retransform k theta) p =
  let s := Vec.divv (Rect.size (SVGKnob.box k)) (Rect.size (SVGKnob.sw_box k)) in
  let c := Rect.getCenter (SVGKnob.sw_box k) in
  Vec.mk (Vec.x s * (Vec.x c + (cos theta * (Vec.x p - Vec.x c) - sin theta * (Vec.y p - Vec.y c))))
         (Vec.y s * (Vec.y c + (sin theta * (Vec.x p - Vec.x c) + cos theta * (Vec.y p - Vec.y c)))).
Proof.
  unfold SVGKnob.retransform.
  rewrite apply_translate, apply_rotate, apply_translate, apply_scale, apply_identity.
  unfold Vec.plus, Vec.neg; simpl; f_equal; ring.
Qed.

Lemma step_tw_dirty (k : SVGKnob.t Internal) :
  SVGKnob.dirty k = true ->
  SVGKnob.tw (SVGKnob.step FramebufferWidget_step k) = SVGKnob.retransform k (SVGKnob.angle k).
Proof. intros Hd; unfold SVGKnob.step; rewrite Hd; reflexivity. Qed.

Lemma step_tw_clean (k : SVGKnob.t Internal) :
  SVGKnob.dirty k = false -> SVGKnob.tw (SVGKnob.step FramebufferWidget_step k) = SVGKnob.tw k.
Proof. intros Hd; unfold SVGKnob.step; rewrite Hd; reflexivity. Qed.

Lemma scenario_angle : mapf 5 0 10 0 PI = PI / 2.
Proof. unfold mapf; lra. Qed.

(** C1.  When the flag is set, [step] computes
    [angle = map(value, minValue, maxValue, minAngle, maxAngle)] and leaves
    in [tw] the transform built by [identity], [scale(box.size /
    sw->box.size)], [translate(center)], [rotate(angle)],
    [translate(-center)] in this order, [center] being the center of the
    natural box of the graphic; a point therefore goes through them last
    call first.  With the range [0 .. 10], the angles [0 .. PI] and the
    value [5] the angle is [PI / 2]. *)
Theorem step_rebuilds_transform (k : SVGKnob.t Internal) :
  SVGKnob.dirty k = true ->
  let angle :=
    mapf (Knob.value (SVGKnob.knob k)) (Knob.minValue (SVGKnob.knob k))
         (Knob.maxValue (SVGKnob.knob k)) (SVGKnob.minAngle k) (SVGKnob.maxAngle k) in
  let s := Vec.divv (Rect.size (SVGKnob.box k)) (Rect.size (SVGKnob.sw_box k)) in
  let center := Rect.getCenter (SVGKnob.sw_box k) in
  SVGKnob.tw (SVGKnob.step FramebufferWidget_step k) =
    TransformWidget.translate
      (TransformWidget.rotate
         (TransformWidget.translate
            (TransformWidget.scale (TransformWidget.identity (SVGKnob.tw k)) s)
            center)
         angle)
      (Vec.neg center) /\
  (forall p : Vec.t,
      TransformWidget.apply (SVGKnob.tw (SVGKnob.step FramebufferWidget_step k)) p =
      Vec.mk (Vec.x s * (Vec.x center + (cos angle * (Vec.x p - Vec.x center)
                                         - sin angle * (Vec.y p - Vec.y center))))
             (Vec.y s * (Vec.y center + (sin angle * (Vec.x p - Vec.x center)
                                         + cos angle * (Vec.y p - Vec.y center))))) /\
  (Knob.minValue (SVGKnob.knob k) = 0 -> Knob.maxValue (SVGKnob.knob k) = 10 ->
   SVGKnob.minAngle k = 0 -> SVGKnob.maxAngle k = PI ->
   Knob.value (SVGKnob.knob k) = 5 ->
   angle = PI / 2).
Proof.
  intros Hd; cbv zeta; rewrite (step_tw_dirty k Hd); repeat split.
  - intros p; apply apply_retransform.
  - intros -> -> -> -> ->; apply scenario_angle.
Qed.

(** C2.  For every angle, the transform [step] builds sends the center of
    the natural box of the graphic to the scaled center, which is where the
    unrotated transform sends it: the rotation keeps the visual center in
    place whatever the scale. *)
Theorem retransform_fixes_center (k : SVGKnob.t Internal) (theta : float) :
  let s := Vec.divv (Rect.size (SVGKnob.box k)) (Rect.size (SVGKnob.sw_box k)) in
  let center := Rect.getCenter (SVGKnob.sw_box k) in
  TransformWidget.apply (SVGKnob.retransform k theta) center =
    Vec.mk (Vec.x s * Vec.x center) (Vec.y s * Vec.y center) /\
  TransformWidget.apply (SVGKnob.retransform k theta) center =
    TransformWidget.apply (SVGKnob.retransform k 0) center.
Proof.
  cbv zeta; rewrite !apply_retransform; cbv zeta; split; f_equal; ring.
Qed.

(** The same for the transform a step leaves behind. *)
Lemma step_fixes_center (k : SVGKnob.t Internal) :
  SVGKnob.dirty k = true ->
  TransformWidget.apply (SVGKnob.tw (SVGKnob.step FramebufferWidget_step k)) (Rect.getCenter (SVGKnob.sw_box k)) =
  TransformWidget.apply (SVGKnob.retransform k 0) (Rect.getCenter (SVGKnob.sw_box k)).
Proof.
  intros Hd; rewrite (step_tw_dirty k Hd), !apply_retransform; cbv zeta; f_equal; ring.
Qed.

(** C3.  After [onChange] the flag is set, so the next [step] rebuilds the
    transform from the value the knob then has. *)
Theorem onChange_sets_dirty (k : SVGKnob.t Internal) :
  SVGKnob.dirty (SVGKnob.onChange Knob_onChange k) = true /\
  SVGKnob.tw (SVGKnob.step FramebufferWidget_step (SVGKnob.onChange Knob_onChange k)) =
    SVGKnob.retransform (SVGKnob.onChange Knob_onChange k) (SVGKnob.angle (SVGKnob.onChange Knob_onChange k)).
Proof.
  assert (Hd : SVGKnob.dirty (SVGKnob.onChange Knob_onChange k) = true) by reflexivity.
  split; [exact Hd|apply step_tw_dirty, Hd].
Qed.

End KnobProperties.

Lemma step_rebuilds_transform_witness :
  SVGKnob.dirty scenario_knob = true /\
  SVGKnob.angle scenario_knob = PI / 2 /\
  TransformWidget.apply
    (SVGKnob.tw (SVGKnob.step scenario_framebuffer_step scenario_knob))
    (Vec.mk 5 5) = Vec.mk 10 15.
Proof.
  assert (Hd : SVGKnob.dirty scenario_knob = true) by reflexivity.
  destruct (step_rebuilds_transform scenario_framebuffer_step scenario_knob Hd)
    as [_ [Hp Ha]].
  split; [exact Hd|split].
  - apply Ha; reflexivity.
  - rewrite Hp; simpl; f_equal; field.
Defined.

(** * Further properties of the code *)

(** [field] on an equation between [float]s. *)
Ltac float_field := unfold float in *; field.
Ltac float_ring := unfold float in *; ring.

(** ** chopf, mapf, crossf *)

Lemma chopf_small (x eps : float) : Rabs x < eps -> chopf x eps = 0.
Proof.
  intros H; unfold chopf, fgtb, fltb.
  unfold Rabs in H; destruct (Rcase_abs x);
    destruct (Rlt_dec x eps), (Rlt_dec (- eps) x); simpl; (reflexivity || lra).
Qed.

Lemma chopf_large (x eps : float) : eps <= Rabs x -> chopf x eps = x.
Proof.
  intros H; unfold chopf, fgtb, fltb.
  unfold Rabs in H; destruct (Rcase_abs x);
    destruct (Rlt_dec x eps), (Rlt_dec (- eps) x); simpl; (reflexivity || lra).
Qed.

(** X2.  [chopf x eps] is [0] when the magnitude of [x] is below [eps] and
    [x] itself otherwise, so for [eps <= 0] it is always [x]; it never
    returns a non-zero value of magnitude below [eps], and chopping twice is
    chopping once. *)
Theorem chopf_zero_or_large (x eps : float) :
  (Rabs x < eps -> chopf x eps = 0) /\
  (eps <= Rabs x -> chopf x eps = x) /\
  (eps <= 0 -> chopf x eps = x) /\
  (chopf x eps = 0 \/ (chopf x eps = x /\ eps <= Rabs x)) /\
  chopf (chopf x eps) eps = chopf x eps.
Proof.
  split; [apply chopf_small|split; [apply chopf_large|split]].
  - intros H; apply chopf_large; pose proof (Rabs_pos x); lra.
  - destruct (Rlt_le_dec (Rabs x) eps) as [Hs|Hl]; split.
    + left; now apply chopf_small.
    + rewrite (chopf_small x eps Hs); apply chopf_small.
      rewrite Rabs_R0; pose proof (Rabs_pos x); lra.
    + right; split; [now apply chopf_large|assumption].
    + rewrite (chopf_large x eps Hl); now apply chopf_large.
Qed.

Lemma chopf_zero_or_large_witness :
  chopf (- (1 / 2)) 1 = 0 /\ chopf 2 1 = 2 /\ chopf (1 / 2) (-1) = 1 / 2.
Proof.
  split; [|split].
  - apply (proj1 (chopf_zero_or_large (- (1 / 2)) 1)).
    unfold Rabs; destruct (Rcase_abs (- (1 / 2))); lra.
  - apply (proj1 (proj2 (chopf_zero_or_large 2 1))).
    unfold Rabs; destruct (Rcase_abs 2); lra.
  - apply (proj1 (proj2 (proj2 (chopf_zero_or_large (1 / 2) (-1))))); lra.
Defined.

Lemma mapf_xMin_xMax (xMin xMax yMin yMax : float) :
  xMin <> xMax ->
  mapf xMin xMin xMax yMin yMax = yMin /\ mapf xMax xMin xMax yMin yMax = yMax.
Proof. intros H; unfold mapf; split; float_field; lra. Qed.

(** X3.  On a source range that is not degenerate, [mapf] sends [xMin] to
    [yMin] and [xMax] to [yMax]. *)
Theorem mapf_endpoints (xMin xMax yMin yMax : float) :
  xMin <> xMax ->
  mapf xMin xMin xMax yMin yMax = yMin /\ mapf xMax xMin xMax yMin yMax = yMax.
Proof. exact (mapf_xMin_xMax xMin xMax yMin yMax). Qed.

Lemma mapf_endpoints_witness :
  mapf 0 0 10 (-1) 1 = -1 /\ mapf 10 0 10 (-1) 1 = 1.
Proof. apply (mapf_endpoints 0 10 (-1) 1); lra. Defined.

(** X4.  Mapping back with the two ranges exchanged undoes [mapf], when
    neither range is degenerate. *)
Theorem mapf_inverse (x xMin xMax yMin yMax : float) :
  xMin <> xMax -> yMin <> yMax ->
  mapf (mapf x xMin xMax yMin yMax) yMin yMax xMin xMax = x.
Proof. intros H1 H2; unfold mapf; float_field; lra. Qed.

Lemma mapf_inverse_witness : mapf (mapf 3 0 10 (-1) 1) (-1) 1 0 10 = 3.
Proof. apply mapf_inverse; lra. Defined.

(** X5.  [mapf] is affine: on a source range that is not degenerate it
    commutes with [crossf], for every fraction (extrapolation included). *)
Theorem mapf_crossf (x0 x1 t xMin xMax yMin yMax : float) :
  xMin <> xMax ->
  mapf (crossf x0 x1 t) xMin xMax yMin yMax =
  crossf (mapf x0 xMin xMax yMin yMax) (mapf x1 xMin xMax yMin yMax) t.
Proof. intros H; unfold mapf, crossf; float_field; lra. Qed.

Lemma mapf_crossf_witness :
  mapf (crossf 2 4 (1 / 2)) 0 10 0 5 = crossf (mapf 2 0 10 0 5) (mapf 4 0 10 0 5) (1 / 2).
Proof. apply mapf_crossf; lra. Defined.

Lemma mapf_increasing (x x' xMin xMax yMin yMax : float) :
  xMin < xMax -> yMin < yMax ->
  (x < x' <-> mapf x xMin xMax yMin yMax < mapf x' xMin xMax yMin yMax).
Proof.
  intros H1 H2; unfold mapf.
  assert (Hk : 0 < (yMax - yMin) / (xMax - xMin)).
  { apply Rdiv_lt_0_compat; lra. }
  replace (yMin + (x - xMin) / (xMax - xMin) * (yMax - yMin))
    with (yMin + (x - xMin) * ((yMax - yMin) / (xMax - xMin))) by (float_field; lra).
  replace (yMin + (x' - xMin) / (xMax - xMin) * (yMax - yMin))
    with (yMin + (x' - xMin) * ((yMax - yMin) / (xMax - xMin))) by (float_field; lra).
  split; intros H; nra.
Qed.

(** X6.  [mapf] does not clamp: with increasing ranges the result is in
    [yMin, yMax] exactly when the argument is in [xMin, xMax]. *)
Theorem mapf_in_range_iff (x xMin xMax yMin yMax : float) :
  xMin < xMax -> yMin < yMax ->
  (xMin <= x <= xMax <-> yMin <= mapf x xMin xMax yMin yMax <= yMax).
Proof.
  intros H1 H2.
  destruct (mapf_xMin_xMax xMin xMax yMin yMax) as [Ea Eb]; [lra|].
  pose proof (mapf_increasing x xMin xMin xMax yMin yMax H1 H2) as I1.
  pose proof (mapf_increasing xMin x xMin xMax yMin yMax H1 H2) as I2.
  pose proof (mapf_increasing x xMax xMin xMax yMin yMax H1 H2) as I3.
  pose proof (mapf_increasing xMax x xMin xMax yMin yMax H1 H2) as I4.
  rewrite Ea in I1, I2; rewrite Eb in I3, I4.
  split; intros [Hl Hu]; split.
  - destruct (Rle_lt_dec yMin (mapf x xMin xMax yMin yMax)); [assumption|].
    apply I1 in r; lra.
  - destruct (Rle_lt_dec (mapf x xMin xMax yMin yMax) yMax); [assumption|].
    apply I4 in r; lra.
  - destruct (Rle_lt_dec xMin x); [assumption|]. apply I1 in r; lra.
  - destruct (Rle_lt_dec x xMax); [assumption|]. apply I4 in r; lra.
Qed.

Lemma mapf_in_range_iff_witness :
  0 <= 12 <= 10 <-> 0 <= mapf 12 0 10 0 PI <= PI.
Proof. apply mapf_in_range_iff; [lra|apply PI_RGT_0]. Defined.

(** X7.  For a fraction in [0, 1], [crossf a b frac] lies between [a] and
    [b]. *)
Theorem crossf_between (a b frac : float) :
  0 <= frac <= 1 -> Rmin a b <= crossf a b frac <= Rmax a b.
Proof.
  intros [H0 H1]; unfold crossf, Rmin, Rmax.
  destruct (Rle_dec a b); split; nra.
Qed.

Lemma crossf_between_witness :
  Rmin 4 2 <= crossf 4 2 (1 / 4) <= Rmax 4 2.
Proof. apply crossf_between; lra. Defined.

(** ** mini, maxi *)

(** X8.  [mini] and [maxi] are the minimum and the maximum, on equal
    arguments too; together they return both arguments. *)
Theorem mini_maxi_spec (a b : Z) :
  mini a b = Z.min a b /\ maxi a b = Z.max a b /\
  (mini a b + maxi a b = a + b)%Z /\ (mini a b <= maxi a b)%Z.
Proof.
  unfold mini, maxi.
  destruct (Z.ltb_spec a b), (Z.gtb_spec a b); lia.
Qed.

(** ** The shaping functions *)

Lemma quadraticBipolar_abs (x : float) : quadraticBipolar x = x * Rabs x.
Proof.
  unfold quadraticBipolar, fgeb, fleb, Rabs.
  destruct (Rle_dec 0 x), (Rcase_abs x); lra.
Qed.

Lemma quarticBipolar_abs (x : float) : quarticBipolar x = x * x * x * Rabs x.
Proof.
  unfold quarticBipolar, fgeb, fleb, Rabs.
  destruct (Rle_dec 0 x), (Rcase_abs x); lra.
Qed.

(** X9.  The four shaping functions are odd: [f (- x) = - f x]. *)
Theorem shaping_odd (x : float) :
  quadraticBipolar (- x) = - quadraticBipolar x /\
  cubic (- x) = - cubic x /\
  quarticBipolar (- x) = - quarticBipolar x /\
  quintic (- x) = - quintic x.
Proof.
  rewrite !quadraticBipolar_abs, !quarticBipolar_abs, Rabs_Ropp.
  unfold cubic, quintic; repeat split; float_ring.
Qed.

Lemma square_increasing (x y : R) : 0 <= x -> x < y -> x * x < y * y.
Proof. intros; nra. Qed.

Lemma quadraticBipolar_increasing (x y : float) :
  x < y -> quadraticBipolar x < quadraticBipolar y.
Proof.
  intros H; unfold quadraticBipolar, fgeb, fleb.
  destruct (Rle_dec 0 x), (Rle_dec 0 y); nra.
Qed.

Lemma cubic_increasing (x y : float) : x < y -> cubic x < cubic y.
Proof.
  intros H; unfold cubic.
  assert (Hd : y * y * y - x * x * x =
               (y - x) * ((x + y / 2) * (x + y / 2) + 3 / 4 * (y * y))) by (float_field).
  assert (Hp : 0 < (x + y / 2) * (x + y / 2) + 3 / 4 * (y * y)).
  { pose proof (Rle_0_sqr (x + y / 2)) as Hs; unfold Rsqr in Hs.
    pose proof (Rle_0_sqr y) as Hs'; unfold Rsqr in Hs'.
    destruct (Req_dec y 0) as [Hy|Hy].
    - assert (Hx : x + y / 2 <> 0) by lra.
      apply Rsqr_pos_lt in Hx; unfold Rsqr in Hx; lra.
    - apply Rsqr_pos_lt in Hy; unfold Rsqr in Hy; lra. }
  assert (0 < (y - x) * ((x + y / 2) * (x + y / 2) + 3 / 4 * (y * y))).
  { apply Rmult_lt_0_compat; lra. }
  lra.
Qed.

Lemma quarticBipolar_increasing (x y : float) :
  x < y -> quarticBipolar x < quarticBipolar y.
Proof.
  intros H.
  assert (E : forall z : float, quarticBipolar z = quadraticBipolar (quadraticBipolar z)).
  { intros z; unfold quarticBipolar, quadraticBipolar, fgeb, fleb.
    destruct (Rle_dec 0 z).
    - destruct (Rle_dec 0 (z * z)); [float_ring|nra].
    - destruct (Rle_dec 0 (- (z * z))); [nra|float_ring]. }
  rewrite !E; now apply quadraticBipolar_increasing, quadraticBipolar_increasing.
Qed.

Lemma quintic_increasing (x y : float) : x < y -> quintic x < quintic y.
Proof.
  intros H.
  assert (E : forall z : float, quintic z = cubic z * (z * z)) by (intros; unfold quintic, cubic; float_ring).
  rewrite !E.
  pose proof (cubic_increasing x y H) as Hc.
  assert (Hc0 : forall z : float, 0 <= z -> 0 <= cubic z).
  { intros z Hz; unfold cubic; apply Rmult_le_pos; [apply Rmult_le_pos|]; assumption. }
  assert (Hcn : forall z : float, z <= 0 -> cubic z <= 0).
  { intros z Hz; unfold cubic.
    replace (z * z * z) with (- ((- z) * (- z) * (- z))) by float_ring.
    assert (0 <= (- z) * (- z) * (- z)); [|lra].
    apply Rmult_le_pos; [apply Rmult_le_pos|]; lra. }
  destruct (Rle_lt_dec 0 x) as [Hx|Hx].
  - pose proof (Hc0 x Hx). assert (x * x < y * y) by nra.
    assert (0 <= x * x) by nra. nra.
  - destruct (Rle_lt_dec y 0) as [Hy|Hy].
    + pose proof (Hcn y Hy). assert (y * y < x * x) by nra.
      assert (0 <= y * y) by nra.
      assert (cubic x < 0) by (pose proof (Hcn x); lra).
      nra.
    + assert (cubic x <= 0) by (apply Hcn; lra).
      assert (0 <= cubic y) by (apply Hc0; lra).
      assert (0 < x * x) by nra. assert (0 < y * y) by nra.
      assert (cubic x * (x * x) <= 0) by nra.
      assert (0 <= cubic y * (y * y)) by nra.
      destruct (Req_dec (cubic y) 0) as [E0|E0].
      * assert (cubic x < 0) by lra. nra.
      * nra.
Qed.

(** X10.  The four shaping functions are strictly increasing, so none of
    them maps two control values to one. *)
Theorem shaping_increasing (x y : float) :
  x < y ->
  quadraticBipolar x < quadraticBipolar y /\
  cubic x < cubic y /\
  quarticBipolar x < quarticBipolar y /\
  quintic x < quintic y.
Proof.
  intros H; repeat split.
  - now apply quadraticBipolar_increasing.
  - now apply cubic_increasing.
  - now apply quarticBipolar_increasing.
  - now apply quintic_increasing.
Qed.

Lemma shaping_increasing_witness :
  quadraticBipolar (-1) < quadraticBipolar (1 / 2) /\
  cubic (-1) < cubic (1 / 2) /\
  quarticBipolar (-1) < quarticBipolar (1 / 2) /\
  quintic (-1) < quintic (1 / 2).
Proof. apply shaping_increasing; lra. Defined.

(** ** getf, setf *)

(** X11.  Reading through a pointer after writing through it gives the
    written value, or the default when the pointer is null; a write through
    a null pointer changes no cell, and a write through a pointer changes no
    other cell. *)
Theorem getf_setf (m : memory) (p q : ptr) (v d : float) :
  getf (setf m p v) p d = match p with Some _ => v | None => d end /\
  (p = None -> forall a, setf m p v a = m a) /\
  (q <> p -> getf (setf m p v) q d = getf m q d).
Proof.
  repeat split.
  - destruct p as [a|]; simpl; [now rewrite Nat.eqb_refl|reflexivity].
  - intros ->; reflexivity.
  - intros Hq; destruct p as [a|], q as [b|]; simpl; try reflexivity.
    destruct (Nat.eqb_spec b a); [congruence|reflexivity].
Qed.

Lemma getf_setf_witness :
  getf (setf (fun _ => 0) (Some 3%nat) 7) (Some 3%nat) 1 = 7 /\
  (forall a, setf (fun _ => 0) None 7 a = 0) /\
  getf (setf (fun _ => 0) (Some 3%nat) 7) (Some 4%nat) 1 = 0.
Proof.
  split; [exact (proj1 (getf_setf (fun _ => 0) (Some 3%nat) None 7 1))|split].
  - exact (proj1 (proj2 (getf_setf (fun _ => 0) None None 7 1)) eq_refl).
  - apply (proj2 (proj2 (getf_setf (fun _ => 0) (Some 3%nat) (Some 4%nat) 7 1))).
    discriminate.
Defined.

(** ** interpf, continued *)

(** X12.  At an integral index [n] with [p[n + 1]] inside the array,
    [interpf] returns the sample [p[n]] itself. *)
Theorem interpf_at_sample (p : list float) (n : Z) :
  (0 <= n < INT_MAX)%Z -> (n + 2 <= Z.of_nat (length p))%Z ->
  exists v, load p n = Some v /\ interpf p (IZR n) = Some v.
Proof.
  intros Hn Hlen.
  destruct (load_inside p n) as [p0 Hp0]; [lia|].
  destruct (load_inside p (n + 1)) as [p1 Hp1]; [lia|].
  exists p0; split; [assumption|].
  unfold interpf, float_to_int, int_add.
  rewrite truncate_nonneg by (apply IZR_le; lia).
  unfold floor; rewrite Int_part_IZR.
  assert (Hin : in_intb n = true).
  { apply in_intb_true; unfold in_int, INT_MIN, INT_MAX in *; lia. }
  assert (Hin1 : in_intb (n + 1) = true).
  { apply in_intb_true; unfold in_int, INT_MIN, INT_MAX in *; lia. }
  rewrite Hin, Hp0, Hin1, Hp1; f_equal; unfold crossf; float_ring.
Qed.

Lemma interpf_at_sample_witness :
  exists v, load [5; 6; 7] 1 = Some v /\ interpf [5; 6; 7] 1 = Some v.
Proof.
  apply (interpf_at_sample [5; 6; 7] 1); [unfold INT_MAX; lia|simpl; lia].
Defined.

Lemma truncate_le_minus_one (x : float) : x <= -1 -> (truncate x <= -1)%Z.
Proof.
  intros Hx; rewrite truncate_neg by lra; unfold ceil.
  pose proof (floor_bounds (- x)) as [_ Hb]; unfold floor in Hb.
  assert (Hlt : IZR 0 < IZR (Int_part (- x))) by lra.
  apply lt_IZR in Hlt; lia.
Qed.

Lemma truncate_nonneg_of_gt (x : float) : -1 < x -> (0 <= truncate x)%Z.
Proof.
  intros Hx; destruct (Rle_lt_dec 0 x) as [H0|H0].
  - rewrite truncate_nonneg by assumption; now apply floor_nonneg.
  - rewrite truncate_neg by assumption; unfold ceil.
    rewrite (Int_part_unique (- x) 0); [lia|lra].
Qed.

(** X13.  [interpf] has no defined result when the index is [-1] or less
    (the first read is before the array), and for no index at all when the
    array has fewer than two elements. *)
Theorem interpf_undefined (p : list float) (x : float) :
  x <= -1 \/ (length p < 2)%nat -> interpf p x = None.
Proof.
  intros H; unfold interpf, float_to_int.
  destruct (in_intb (truncate x)); [|reflexivity].
  destruct (Rle_lt_dec x (-1)) as [Hx|Hx].
  - pose proof (truncate_le_minus_one x Hx) as Ht.
    unfold load at 1; destruct (Z.ltb_spec (truncate x) 0); [reflexivity|lia].
  - destruct H as [H|H]; [lra|].
    pose proof (truncate_nonneg_of_gt x Hx) as Ht.
    destruct (load p (truncate x)) eqn:E0; [|reflexivity].
    unfold int_add; destruct (in_intb (truncate x + 1)); [|reflexivity].
    rewrite (load_outside p (truncate x + 1)) by lia; reflexivity.
Qed.

Lemma interpf_undefined_witness :
  interpf [1; 2; 3] (- 2) = None /\ interpf [1] (1 / 2) = None.
Proof.
  split; apply interpf_undefined; [left; lra|right; simpl; lia].
Defined.

(** X14.  For an index inside the array, the result of [interpf] lies
    between the two samples it reads. *)
Theorem interpf_between (p : list float) (x : float) (p0 p1 : float) :
  0 <= x -> load p (floor x) = Some p0 -> load p (floor x + 1) = Some p1 ->
  (floor x < INT_MAX)%Z ->
  exists v, interpf p x = Some v /\ Rmin p0 p1 <= v <= Rmax p0 p1.
Proof.
  intros Hx Hp0 Hp1 Hmax.
  pose proof (floor_nonneg x Hx) as H0.
  exists (crossf p0 p1 (x - IZR (floor x))); split.
  - unfold interpf, float_to_int, int_add; rewrite (truncate_nonneg x Hx).
    assert (Hin : in_intb (floor x) = true).
    { apply in_intb_true; unfold in_int, INT_MIN, INT_MAX in *; lia. }
    assert (Hin1 : in_intb (floor x + 1) = true).
    { apply in_intb_true; unfold in_int, INT_MIN, INT_MAX in *; lia. }
    rewrite Hin, Hp0, Hin1, Hp1; reflexivity.
  - pose proof (floor_bounds x).
    unfold crossf, Rmin, Rmax; destruct (Rle_dec p0 p1); split; nra.
Qed.

Lemma interpf_between_witness :
  exists v, interpf [1; 2; 4] (3 / 2) = Some v /\ Rmin 2 4 <= v <= Rmax 2 4.
Proof.
  assert (Hf : floor (3 / 2) = 1%Z) by (apply Int_part_unique; lra).
  apply (interpf_between [1; 2; 4] (3 / 2) 2 4).
  - lra.
  - rewrite Hf; reflexivity.
  - rewrite Hf; reflexivity.
  - rewrite Hf; reflexivity.
Defined.

(** ** Vec *)

(** X15.  Negation is an involution, [minus] undoes [plus] and [plus]
    undoes [minus], and subtracting is adding the negation. *)
Theorem vec_plus_minus (a b : Vec.t) :
  Vec.neg (Vec.neg a) = a /\
  Vec.minus (Vec.plus a b) b = a /\
  Vec.plus (Vec.minus a b) b = a /\
  Vec.plus a (Vec.neg b) = Vec.minus a b.
Proof.
  destruct a as [ax ay], b as [bx by_].
  unfold Vec.neg, Vec.plus, Vec.minus; simpl; repeat split; f_equal; float_ring.
Qed.

(** X16.  For a non-zero scalar, [div] undoes [mult] and [mult] undoes
    [div]. *)
Theorem vec_mult_div (v : Vec.t) (s : float) :
  s <> 0 ->
  Vec.div (Vec.mult v s) s = v /\ Vec.mult (Vec.div v s) s = v.
Proof.
  intros Hs; destruct v as [vx vy].
  unfold Vec.div, Vec.mult; simpl; split; f_equal; float_field; assumption.
Qed.

Lemma vec_mult_div_witness :
  Vec.div (Vec.mult (Vec.mk 3 4) 2) 2 = Vec.mk 3 4 /\
  Vec.mult (Vec.div (Vec.mk 3 4) 2) 2 = Vec.mk 3 4.
Proof. apply vec_mult_div; lra. Defined.

Lemma sum_squares_nonneg (x y : R) : 0 <= x * x + y * y.
Proof. nra. Qed.

Lemma norm_nonneg (v : Vec.t) : 0 <= Vec.norm v.
Proof. unfold Vec.norm, hypotf; apply sqrt_pos. Qed.

Lemma norm_square (v : Vec.t) : Vec.norm v * Vec.norm v = Vec.dot v v.
Proof. unfold Vec.norm, hypotf, Vec.dot; apply sqrt_sqrt, sum_squares_nonneg. Qed.

(** X17.  The norm is non-negative, its square is the dot product of the
    vector with itself, and it is zero for the zero vector only. *)
Theorem vec_norm_spec (v : Vec.t) :
  0 <= Vec.norm v /\
  Vec.norm v * Vec.norm v = Vec.dot v v /\
  (Vec.norm v = 0 <-> v = Vec.zero).
Proof.
  split; [apply norm_nonneg|split; [apply norm_square|]].
  split.
  - intros H; pose proof (norm_square v) as Hs; rewrite H in Hs.
    destruct v as [vx vy]; unfold Vec.dot in Hs; simpl in Hs.
    assert (vx = 0) by nra. assert (vy = 0) by nra.
    subst; reflexivity.
  - intros ->; unfold Vec.norm, hypotf, Vec.zero; simpl.
    replace (0 * 0 + 0 * 0) with 0 by float_ring; apply sqrt_0.
Qed.

(** X18.  Scaling a vector scales its norm by the magnitude of the scalar;
    negation keeps the norm. *)
Theorem vec_norm_mult (v : Vec.t) (s : float) :
  Vec.norm (Vec.mult v s) = Rabs s * Vec.norm v /\
  Vec.norm (Vec.neg v) = Vec.norm v.
Proof.
  unfold Vec.norm, hypotf, Vec.mult, Vec.neg; simpl; split.
  - replace (Vec.x v * s * (Vec.x v * s) + Vec.y v * s * (Vec.y v * s))
      with (Rsqr s * (Vec.x v * Vec.x v + Vec.y v * Vec.y v))
      by (unfold Rsqr; float_ring).
    rewrite sqrt_mult by (apply Rle_0_sqr || apply sum_squares_nonneg).
    now rewrite sqrt_Rsqr_abs.
  - f_equal; float_ring.
Qed.

Lemma dot_le_norms (a b : Vec.t) : Vec.dot a b <= Vec.norm a * Vec.norm b.
Proof.
  pose proof (norm_nonneg a) as Ha. pose proof (norm_nonneg b) as Hb.
  pose proof (norm_square a) as Sa. pose proof (norm_square b) as Sb.
  destruct (Rle_lt_dec (Vec.dot a b) 0) as [Hn|Hp]; [nra|].
  apply Rsqr_incr_0_var; [|nra].
  unfold Rsqr.
  replace (Vec.norm a * Vec.norm b * (Vec.norm a * Vec.norm b))
    with ((Vec.norm a * Vec.norm a) * (Vec.norm b * Vec.norm b)) by float_ring.
  rewrite Sa, Sb; unfold Vec.dot.
  assert (Hd : (Vec.x a * Vec.x a + Vec.y a * Vec.y a) * (Vec.x b * Vec.x b + Vec.y b * Vec.y b)
               - (Vec.x a * Vec.x b + Vec.y a * Vec.y b) * (Vec.x a * Vec.x b + Vec.y a * Vec.y b)
               = (Vec.x a * Vec.y b - Vec.y a * Vec.x b) * (Vec.x a * Vec.y b - Vec.y a * Vec.x b))
    by float_ring.
  pose proof (Rle_0_sqr (Vec.x a * Vec.y b - Vec.y a * Vec.x b)) as Hs; unfold Rsqr in Hs.
  lra.
Qed.

(** X19.  The Cauchy-Schwarz and the triangle inequality: the dot product
    is at most the product of the norms in magnitude, and the norm of a sum
    is at most the sum of the norms. *)
Theorem vec_norm_triangle (a b : Vec.t) :
  Rabs (Vec.dot a b) <= Vec.norm a * Vec.norm b /\
  Vec.norm (Vec.plus a b) <= Vec.norm a + Vec.norm b.
Proof.
  pose proof (dot_le_norms a b) as H1.
  split.
  - pose proof (dot_le_norms (Vec.neg a) b) as H2.
    assert (En : Vec.norm (Vec.neg a) = Vec.norm a).
    { unfold Vec.norm, hypotf, Vec.neg; simpl; f_equal; float_ring. }
    assert (Ed : Vec.dot (Vec.neg a) b = - Vec.dot a b).
    { unfold Vec.dot, Vec.neg; simpl; float_ring. }
    rewrite En, Ed in H2.
    unfold Rabs; destruct (Rcase_abs (Vec.dot a b)); lra.
  - pose proof (norm_nonneg a) as Ha. pose proof (norm_nonneg b) as Hb.
    pose proof (norm_nonneg (Vec.plus a b)) as Hab.
    pose proof (norm_square a) as Sa. pose proof (norm_square b) as Sb.
    pose proof (norm_square (Vec.plus a b)) as Sab.
    assert (Ep : Vec.dot (Vec.plus a b) (Vec.plus a b) =
                 Vec.dot a a + 2 * Vec.dot a b + Vec.dot b b).
    { unfold Vec.dot, Vec.plus; simpl; float_ring. }
    apply Rsqr_incr_0_var; [|lra].
    unfold Rsqr; nra.
Qed.

(** X20.  [min] and [max] work per component: no component of [min]
    exceeds that of either argument, and the two results add up to the
    arguments. *)
Theorem vec_min_max (a b : Vec.t) :
  Vec.x (Vec.min a b) <= Vec.x a /\ Vec.x (Vec.min a b) <= Vec.x b /\
  Vec.y (Vec.min a b) <= Vec.y a /\ Vec.y (Vec.min a b) <= Vec.y b /\
  Vec.x a <= Vec.x (Vec.max a b) /\ Vec.x b <= Vec.x (Vec.max a b) /\
  Vec.y a <= Vec.y (Vec.max a b) /\ Vec.y b <= Vec.y (Vec.max a b) /\
  Vec.plus (Vec.min a b) (Vec.max a b) = Vec.plus a b.
Proof.
  unfold Vec.min, Vec.max, Vec.plus, Rmin, Rmax; simpl.
  destruct (Rle_dec (Vec.x a) (Vec.x b)), (Rle_dec (Vec.y a) (Vec.y b));
    repeat split; try lra; f_equal; lra.
Qed.

Lemma roundf_near (x : float) : Rabs (roundf x - x) <= 1 / 2.
Proof.
  unfold roundf; destruct (Rle_dec 0 x).
  - pose proof (floor_bounds (x + 1 / 2)) as Hb; unfold floor in Hb.
    unfold Rabs; destruct (Rcase_abs _); lra.
  - pose proof (floor_bounds (- x + 1 / 2)) as Hb; unfold floor in Hb.
    unfold Rabs; destruct (Rcase_abs _); lra.
Qed.

Lemma roundf_IZR (n : Z) : roundf (IZR n) = IZR n.
Proof.
  unfold roundf; destruct (Rle_dec 0 (IZR n)).
  - rewrite (Int_part_unique (IZR n + 1 / 2) n); [reflexivity|lra].
  - rewrite (Int_part_unique (- IZR n + 1 / 2) (- n)); rewrite opp_IZR; lra.
Qed.

Lemma roundf_integral (x : float) : exists n : Z, roundf x = IZR n.
Proof.
  unfold roundf; destruct (Rle_dec 0 x); [now eexists|].
  exists (- Int_part (- x + 1 / 2))%Z; now rewrite opp_IZR.
Qed.

(** X21.  [round] moves each coordinate by at most one half, and rounding
    a rounded vector changes nothing. *)
Theorem vec_round_spec (v : Vec.t) :
  Rabs (Vec.x (Vec.round v) - Vec.x v) <= 1 / 2 /\
  Rabs (Vec.y (Vec.round v) - Vec.y v) <= 1 / 2 /\
  Vec.round (Vec.round v) = Vec.round v.
Proof.
  split; [apply roundf_near|split; [apply roundf_near|]].
  unfold Vec.round; simpl.
  destruct (roundf_integral (Vec.x v)) as [n ->].
  destruct (roundf_integral (Vec.y v)) as [m ->].
  now rewrite !roundf_IZR.
Qed.

(** ** Rect, continued *)

(** X22.  A rectangle contains its top-left corner and its center exactly
    when both its sides are positive, and it never contains its other three
    corners. *)
Theorem rect_corners (r : Rect.t) :
  (Rect.contains r (Rect.pos r) = true <-> positive_size r) /\
  (Rect.contains r (Rect.getCenter r) = true <-> positive_size r) /\
  Rect.contains r (Rect.getTopRight r) = false /\
  Rect.contains r (Rect.getBottomLeft r) = false /\
  Rect.contains r (Rect.getBottomRight r) = false.
Proof.
  unfold positive_size; repeat split;
    try (apply not_true_is_false; intros H);
    try (intros H);
    try (apply contains_iff);
    try (apply contains_iff in H);
    unfold Rect.getCenter, Rect.getTopRight, Rect.getBottomLeft, Rect.getBottomRight,
      Vec.plus, Vec.mult in *; simpl in *; lra.
Qed.

(** X23.  A rectangle with a side of length zero or less contains no
    point. *)
Theorem rect_empty (r : Rect.t) (v : Vec.t) :
  Vec.x (Rect.size r) <= 0 \/ Vec.y (Rect.size r) <= 0 -> Rect.contains r v = false.
Proof.
  intros H; apply not_true_is_false; rewrite contains_iff; lra.
Qed.

Lemma rect_empty_witness :
  Rect.contains (Rect.mk (Vec.mk 5 5) (Vec.mk 0 10)) (Vec.mk 5 6) = false.
Proof. apply rect_empty; simpl; left; lra. Defined.

(** X24.  [intersects] is symmetric, and a rectangle intersects itself
    exactly when both its sides are positive. *)
Theorem intersects_symmetric (a b : Rect.t) :
  Rect.intersects a b = Rect.intersects b a /\
  (Rect.intersects a a = true <-> positive_size a).
Proof.
  split.
  - destruct (Rect.intersects a b) eqn:E1, (Rect.intersects b a) eqn:E2;
      try reflexivity.
    + apply intersects_iff in E1.
      assert (E : Rect.intersects b a = true) by (apply intersects_iff; tauto).
      congruence.
    + apply intersects_iff in E2.
      assert (E : Rect.intersects a b = true) by (apply intersects_iff; tauto).
      congruence.
  - rewrite intersects_iff; unfold positive_size; lra.
Qed.

(** X25.  Two rectangles that contain a common point intersect. *)
Theorem common_point_intersects (a b : Rect.t) (v : Vec.t) :
  Rect.contains a v = true -> Rect.contains b v = true -> Rect.intersects a b = true.
Proof.
  intros Ha Hb; apply contains_iff in Ha, Hb; apply intersects_iff; lra.
Qed.

Lemma common_point_intersects_witness :
  Rect.intersects (Rect.mk (Vec.mk 0 0) (Vec.mk 10 10))
                  (Rect.mk (Vec.mk 9 9) (Vec.mk 5 5)) = true.
Proof.
  apply (common_point_intersects _ _ (Vec.mk 9 9)); apply contains_iff; simpl; lra.
Defined.

Lemma clampf_twice (x min max : float) :
  clampf (clampf x min max) min max = clampf x min max.
Proof. unfold clampf; float_decide; lra. Qed.

(** X26.  [clamp] leaves in place a rectangle that already lies between
    the edges of the bound, and clamping twice to the same bound is clamping
    once. *)
Theorem clamp_fixpoint (r b : Rect.t) :
  (Vec.x (Rect.pos b) <= Vec.x (Rect.pos r) /\
   Vec.x (Rect.pos r) + Vec.x (Rect.size r) <= Vec.x (Rect.pos b) + Vec.x (Rect.size b) /\
   Vec.y (Rect.pos b) <= Vec.y (Rect.pos r) /\
   Vec.y (Rect.pos r) + Vec.y (Rect.size r) <= Vec.y (Rect.pos b) + Vec.y (Rect.size b) ->
   Rect.clamp r b = r) /\
  Rect.clamp (Rect.clamp r b) b = Rect.clamp r b.
Proof.
  split.
  - intros (H1 & H2 & H3 & H4); destruct r as [[px py] sz]; unfold Rect.clamp; simpl in *.
    rewrite !clampf_inside by lra; reflexivity.
  - unfold Rect.clamp; simpl; now rewrite !clampf_twice.
Qed.

Lemma clamp_fixpoint_witness :
  Rect.clamp (Rect.mk (Vec.mk 2 3) (Vec.mk 4 4)) (Rect.mk (Vec.mk 0 0) (Vec.mk 10 10)) =
  Rect.mk (Vec.mk 2 3) (Vec.mk 4 4).
Proof.
  apply (proj1 (clamp_fixpoint (Rect.mk (Vec.mk 2 3) (Vec.mk 4 4))
                               (Rect.mk (Vec.mk 0 0) (Vec.mk 10 10)))).
  simpl; lra.
Defined.

(** X27.  The center is the midpoint of both diagonals: of the top-left and
    the bottom-right corner, and of the top-right and the bottom-left
    corner. *)
Theorem rect_center_midpoint (r : Rect.t) :
  Rect.getCenter r = Vec.mult (Vec.plus (Rect.pos r) (Rect.getBottomRight r)) (1 / 2) /\
  Rect.getCenter r = Vec.mult (Vec.plus (Rect.getTopRight r) (Rect.getBottomLeft r)) (1 / 2).
Proof.
  unfold Rect.getCenter, Rect.getBottomRight, Rect.getTopRight, Rect.getBottomLeft,
    Vec.plus, Vec.mult; simpl; split; f_equal; float_field.
Qed.

(** ** The knob, continued *)

Section KnobFurther.

Context {Internal SVG : Type}.
Variable FramebufferWidget_step : SVGKnob.t Internal -> FramebufferWidget.t Internal.
Variable SVGWidget_wrap : SVG -> Rect.t -> Rect.t.

(** What the rebuilt transform is computed from. *)
Lemma retransform_inputs (k k' : SVGKnob.t Internal) (theta : float) :
  SVGKnob.box k' = SVGKnob.box k -> SVGKnob.sw_box k' = SVGKnob.sw_box k ->
  SVGKnob.retransform k' theta = SVGKnob.retransform k theta.
Proof. intros Hb Hs; unfold SVGKnob.retransform; rewrite Hb, Hs; reflexivity. Qed.

Lemma step_frame (k : SVGKnob.t Internal) :
  SVGKnob.knob (SVGKnob.step FramebufferWidget_step k) = SVGKnob.knob k /\
  SVGKnob.box (SVGKnob.step FramebufferWidget_step k) = SVGKnob.box k /\
  SVGKnob.sw_box (SVGKnob.step FramebufferWidget_step k) = SVGKnob.sw_box k /\
  SVGKnob.minAngle (SVGKnob.step FramebufferWidget_step k) = SVGKnob.minAngle k /\
  SVGKnob.maxAngle (SVGKnob.step FramebufferWidget_step k) = SVGKnob.maxAngle k.
Proof. unfold SVGKnob.step; destruct (SVGKnob.dirty k); repeat split. Qed.

(** X28.  A second [step] with no change of value in between leaves the
    transform of the first, whatever the framebuffer did with the flag; and
    a [step] on a clean knob leaves the transform it found. *)
Theorem step_twice (k : SVGKnob.t Internal) :
  (SVGKnob.dirty k = true ->
   SVGKnob.tw (SVGKnob.step FramebufferWidget_step (SVGKnob.step FramebufferWidget_step k)) =
   SVGKnob.tw (SVGKnob.step FramebufferWidget_step k)) /\
  (SVGKnob.dirty k = false ->
   SVGKnob.tw (SVGKnob.step FramebufferWidget_step k) = SVGKnob.tw k).
Proof.
  split; [|apply step_tw_clean].
  intros Hd.
  destruct (step_frame k) as (Hk & Hb & Hs & Hmin & Hmax).
  destruct (SVGKnob.dirty (SVGKnob.step FramebufferWidget_step k)) eqn:Hd'.
  - rewrite (step_tw_dirty FramebufferWidget_step _ Hd').
    rewrite (step_tw_dirty FramebufferWidget_step k Hd).
    unfold SVGKnob.angle; rewrite Hk, Hmin, Hmax.
    now apply retransform_inputs.
  - now apply step_tw_clean.
Qed.

(** After [setSVG] the box of the knob, the box of [tw] and the box of the
    graphic have one size, the one [wrap] gave the graphic; the positions of
    the first two, the value and the transform are as before. *)
Lemma setSVG_sizes (w : SVGKnob.widgets Internal SVG) (svg : SVG) :
  let w' := SVGKnob.setSVG SVGWidget_wrap w svg in
  Rect.size (SVGKnob.box (SVGKnob.node w')) = Rect.size (SVGKnob.sw_box (SVGKnob.node w')) /\
  Rect.size (SVGKnob.tw_box w') = Rect.size (SVGKnob.sw_box (SVGKnob.node w')) /\
  SVGKnob.sw_box (SVGKnob.node w') = SVGWidget_wrap svg (SVGKnob.sw_box (SVGKnob.node w)) /\
  Rect.pos (SVGKnob.box (SVGKnob.node w')) = Rect.pos (SVGKnob.box (SVGKnob.node w)) /\
  Rect.pos (SVGKnob.tw_box w') = Rect.pos (SVGKnob.tw_box w) /\
  SVGKnob.knob (SVGKnob.node w') = SVGKnob.knob (SVGKnob.node w) /\
  SVGKnob.tw (SVGKnob.node w') = SVGKnob.tw (SVGKnob.node w) /\
  SVGKnob.sw_svg w' = svg.
Proof. cbv zeta; unfold SVGKnob.setSVG; simpl; repeat split. Qed.

Lemma rotation_keeps_norm (theta dx dy : float) :
  hypotf (cos theta * dx - sin theta * dy) (sin theta * dx + cos theta * dy) = hypotf dx dy.
Proof.
  unfold hypotf; f_equal.
  pose proof (sin2_cos2 theta) as H; unfold Rsqr in H.
  replace ((cos theta * dx - sin theta * dy) * (cos theta * dx - sin theta * dy) +
           (sin theta * dx + cos theta * dy) * (sin theta * dx + cos theta * dy))
    with ((sin theta * sin theta + cos theta * cos theta) * (dx * dx + dy * dy))
    by float_ring.
  rewrite H; float_ring.
Qed.

(** When the box of the knob has the size of the graphic, and no side of the
    graphic is zero, the rebuilt transform is a rotation about the center. *)
Lemma retransform_rigid (k : SVGKnob.t Internal) (theta : float) (p : Vec.t) :
  Rect.size (SVGKnob.box k) = Rect.size (SVGKnob.sw_box k) ->
  Vec.x (Rect.size (SVGKnob.sw_box k)) <> 0 -> Vec.y (Rect.size (SVGKnob.sw_box k)) <> 0 ->
  Vec.norm (Vec.minus (TransformWidget.apply (SVGKnob.retransform k theta) p)
                      (Rect.getCenter (SVGKnob.sw_box k))) =
  Vec.norm (Vec.minus p (Rect.getCenter (SVGKnob.sw_box k))).
Proof.
  intros Hsz Hx Hy; rewrite apply_retransform; cbv zeta; rewrite Hsz.
  unfold Vec.norm, Vec.minus, Vec.divv; cbn [Vec.x Vec.y].
  rewrite <- (rotation_keeps_norm theta
                (Vec.x p - Vec.x (Rect.getCenter (SVGKnob.sw_box k)))
                (Vec.y p - Vec.y (Rect.getCenter (SVGKnob.sw_box k)))).
  f_equal; float_field; assumption.
Qed.

(** X29.  After [setSVG] with a graphic whose sides are not zero, the
    transform that a [step] on the dirty knob builds keeps the distance of
    every point to the center of the graphic: the knob turns about its
    center and is not rescaled. *)
Theorem setSVG_step_rigid (w : SVGKnob.widgets Internal SVG) (svg : SVG) (p : Vec.t) :
  let k := SVGKnob.node (SVGKnob.setSVG SVGWidget_wrap w svg) in
  let center := Rect.getCenter (SVGKnob.sw_box k) in
  Vec.x (Rect.size (SVGKnob.sw_box k)) <> 0 -> Vec.y (Rect.size (SVGKnob.sw_box k)) <> 0 ->
  SVGKnob.dirty k = true ->
  Vec.norm (Vec.minus
              (TransformWidget.apply (SVGKnob.tw (SVGKnob.step FramebufferWidget_step k)) p)
              center) =
  Vec.norm (Vec.minus p center).
Proof.
  cbv zeta; intros Hx Hy Hd.
  rewrite (step_tw_dirty FramebufferWidget_step _ Hd).
  apply retransform_rigid; [reflexivity|assumption|assumption].
Qed.

End KnobFurther.

Lemma step_twice_witness :
  SVGKnob.tw (SVGKnob.step scenario_framebuffer_step
                (SVGKnob.step scenario_framebuffer_step scenario_knob)) =
  SVGKnob.tw (SVGKnob.step scenario_framebuffer_step scenario_knob).
Proof. apply (proj1 (step_twice scenario_framebuffer_step scenario_knob)); reflexivity. Defined.

Lemma setSVG_step_rigid_witness :
  Vec.norm (Vec.minus
    (TransformWidget.apply
       (SVGKnob.tw (SVGKnob.step scenario_framebuffer_step
          (SVGKnob.node (SVGKnob.setSVG (fun (_ : unit) (b : Rect.t) => Rect.mk (Rect.pos b) (Vec.mk 10 10))
                           (SVGKnob.mkWidgets scenario_knob (Rect.mk (Vec.mk 0 0) (Vec.mk 0 0)) tt) tt))))
       (Vec.mk 8 9))
    (Vec.mk (0 + 10 * (1 / 2)) (0 + 10 * (1 / 2)))) =
  Vec.norm (Vec.minus (Vec.mk 8 9) (Vec.mk (0 + 10 * (1 / 2)) (0 + 10 * (1 / 2)))).
Proof.
  apply (setSVG_step_rigid scenario_framebuffer_step
           (fun (_ : unit) (b : Rect.t) => Rect.mk (Rect.pos b) (Vec.mk 10 10))
           (SVGKnob.mkWidgets scenario_knob (Rect.mk (Vec.mk 0 0) (Vec.mk 0 0)) tt) tt (Vec.mk 8 9));
    simpl; (lra || reflexivity).
Defined.
